(** * Session store and relay of the chatbot backend (backend/app.py)

    A shallow embedding of the request handler [chat], of the session store
    [get_or_create_conversation] and of the fragment loop of [query_groq_api],
    followed by the properties of the specification that concern them.

    The process-wide dictionary [conversations] is a [gmap] from session key to
    [Conversation].  A [Conversation] object is only ever reachable through the
    dictionary entry it was stored under, so the reference the handler holds is
    modelled by that key and every read or append goes through the store: an
    append made by the handler is seen by [query_groq_api], as with the shared
    Python object.  Exceptions leave the store as it is at the point of the
    raise; nothing is rolled back. *)

From Stdlib Require Import String Ascii.
From stdpp Require Import base option list strings pretty gmap fin_maps.

(** ** Data model *)

(** A message of the history: the dictionary [{"role": ..., "content": ...}]. *)
Record Message := mkMessage { role : string; content : string }.

(** [class Conversation]: the ordered history and the [active] flag. *)
Record Conversation := mkConversation {
  messages : list Message;
  active : bool
}.

(** [class UserInput(BaseModel)], after validation. *)
Record UserInput := mkUserInput {
  message : string;
  input_role : string;
  conversation_id : string
}.

(** The dictionary returned by [chat] on success. *)
Record ChatResult := mkChatResult {
  response : string;
  result_conversation_id : string
}.

(** Exceptions.  [HTTPException] carries a status code and a detail text; every
    other exception is kept by its message, which is what [str(e)] gives. *)
Inductive exn :=
  | HTTPException (status_code : nat) (detail : string)
  | Exception (msg : string).

(** [str(e)].  For an [HTTPException] this is the framework's
    [f"{self.status_code}: {self.detail}"]. *)
Definition str (e : exn) : string :=
  match e with
  | HTTPException status_code detail => pretty status_code +:+ ": " +:+ detail
  | Exception msg => msg
  end.

(** ** The completion collaborator *)

(** One streamed chunk is seen by the code through [chunk.choices[0].delta.content],
    a text or [None].  A chunk is the list of its choices. *)
Record Choice := mkChoice { delta_content : option string }.
Definition Chunk := list Choice.

(** The lazy, finite, non restartable sequence returned by
    [client.chat.completions.create(..., stream=True)]: it yields chunks and
    either ends or raises while it is iterated. *)
Inductive Stream :=
  | StreamEnd
  | StreamYield (chunk : Chunk) (rest : Stream)
  | StreamRaise (msg : string).

(** The collaborator itself is opaque: given the history it is sent, the call
    raises (left, with the failure description) or returns a stream. *)
Definition Groq := list Message -> string + Stream.

(** ** Process state *)

(** [conversations] is the global dictionary; [requests] records, oldest
    first, the histories sent to the collaborator. *)
Record World := mkWorld {
  conversations : gmap string Conversation;
  requests : list (list Message)
}.

Definition initial_world : World := mkWorld ∅ [].

(** ** A state monad with exceptions

    A computation runs on a [World] and returns, with the world it leaves
    behind, either the raised exception or a value. *)
Definition M (A : Type) : Type := World -> (exn + A) * World.

Definition ret {A} (a : A) : M A := fun w => (inr a, w).

Definition bind {A B} (m : M A) (k : A -> M B) : M B :=
  fun w =>
    match m w with
    | (inl e, w') => (inl e, w')
    | (inr a, w') => k a w'
    end.

Definition raise {A} (e : exn) : M A := fun w => (inl e, w).

(** [try: body except Exception as e: handler(e)]. *)
Definition try_except {A} (body : M A) (handler : exn -> M A) : M A :=
  fun w =>
    match body w with
    | (inl e, w') => handler e w'
    | (inr a, w') => (inr a, w')
    end.

#[global] Instance M_ret : MRet M := @ret.
#[global] Instance M_bind : MBind M := fun A B k m => bind m k.

(** ** Primitive accesses to the store *)

(** [key in conversations]. *)
Definition contains (key : string) : M bool :=
  fun w => (inr (bool_decide (is_Some (conversations w !! key))), w).

(** [conversations[key]], a [KeyError] on a missing key. *)
Definition getitem (key : string) : M Conversation :=
  fun w =>
    match conversations w !! key with
    | Some c => (inr c, w)
    | None => (inl (Exception ("'" +:+ key +:+ "'")), w)
    end.

(** [conversations[key] = c]. *)
Definition setitem (key : string) (c : Conversation) : M unit :=
  fun w => (inr tt, mkWorld (<[key := c]> (conversations w)) (requests w)).

(** [Conversation()]: the system prompt alone, and active. *)
Definition system_prompt : Message :=
  mkMessage "system" "You are a useful AI assistant.".

Definition new_Conversation : Conversation :=
  mkConversation [system_prompt] true.

(** [conversation.messages.append(m)] through the reference [ref]. *)
Definition messages_append (ref : string) (m : Message) : M unit :=
  c ← getitem ref;
  setitem ref (mkConversation (messages c ++ [m]) (active c)).

(** ** [query_groq_api] *)

(** [x or ""]: [None] and the empty text both give the empty text. *)
Definition or_empty (x : option string) : string :=
  match x with
  | None => ""
  | Some s => if bool_decide (s = "") then "" else s
  end.

(** The loop [for chunk in completion: response += chunk.choices[0].delta.content or ""].
    [chunk.choices[0]] on a chunk without choices is an [IndexError]. *)
Fixpoint consume (completion : Stream) (response : string) : exn + string :=
  match completion with
  | StreamEnd => inr response
  | StreamRaise msg => inl (Exception msg)
  | StreamYield chunk rest =>
      match chunk with
      | [] => inl (Exception "list index out of range")
      | choice :: _ => consume rest (response +:+ or_empty (delta_content choice))
      end
  end.

(** [client.chat.completions.create(messages=..., stream=True)]: the request
    leaves the process, then the call raises or returns the stream. *)
Definition create (groq : Groq) (msgs : list Message) : M Stream :=
  fun w =>
    let w' := mkWorld (conversations w) (requests w ++ [msgs]) in
    match groq msgs with
    | inl msg => (inl (Exception msg), w')
    | inr completion => (inr completion, w')
    end.

Definition lift_result {A} (r : exn + A) : M A := fun w => (r, w).

Definition query_groq_api (groq : Groq) (conversation : string) : M string :=
  try_except
    (c ← getitem conversation;
     completion ← create groq (messages c);
     lift_result (consume completion ""))
    (fun e => raise (HTTPException 500 ("Error with Groq API: " +:+ str e))).

(** ** [get_or_create_conversation] *)

(** Returns the reference to the session, which is its key in the store. *)
Definition get_or_create_conversation (conversation_id : string) : M string :=
  present ← contains conversation_id;
  (if negb present then setitem conversation_id new_Conversation else ret tt);;
  _ ← getitem conversation_id;
  ret conversation_id.

(** ** The endpoint [chat] *)

Definition session_ended : string :=
  "The chat session has ended. Please start a new session.".

Definition chat (groq : Groq) (input : UserInput) : M ChatResult :=
  conversation ← get_or_create_conversation (conversation_id input);
  c ← getitem conversation;
  if negb (active c) then raise (HTTPException 400 session_ended)
  else
    try_except
      (messages_append conversation (mkMessage (input_role input) (message input));;
       response ← query_groq_api groq conversation;
       messages_append conversation (mkMessage "assistant" response);;
       ret (mkChatResult response (conversation_id input)))
      (fun e => raise (HTTPException 500 (str e))).

(** ** The request model [UserInput] and the HTTP boundary *)

(** A decoded JSON request body. *)
#[local] Unset Elimination Schemes.
Inductive json :=
  | JNull
  | JBool (b : bool)
  | JNumber (n : Z)
  | JString (s : string)
  | JArray (items : list json)
  | JObject (fields : list (string * json)).
#[local] Set Elimination Schemes.

(** The value of a field of a decoded object; of two fields with one name the
    later one stands. *)
Fixpoint field (name : string) (fields : list (string * json)) : option json :=
  match fields with
  | [] => None
  | (k, v) :: rest =>
      match field name rest with
      | Some v' => Some v'
      | None => if decide (k = name) then Some v else None
      end
  end.

(** What a validation error says of a field. *)
Inductive ErrorType := missing | string_type | model_attributes_type.

Definition ValidationError := list (string * ErrorType).

(** A field annotated [str]: any JSON string is taken as it is, the empty one
    included; a value of another JSON type is not converted and is an error. *)
Definition validate_str (name : string) (v : json) : ValidationError + string :=
  match v with
  | JString s => inr s
  | _ => inl [(name, string_type)]
  end.

(** [name: str], without default. *)
Definition required_str (name : string) (fields : list (string * json))
  : ValidationError + string :=
  match field name fields with
  | None => inl [(name, missing)]
  | Some v => validate_str name v
  end.

(** [name: str = default]. *)
Definition defaulted_str (name default : string) (fields : list (string * json))
  : ValidationError + string :=
  match field name fields with
  | None => inr default
  | Some v => validate_str name v
  end.

Definition errors_of {A} (r : ValidationError + A) : ValidationError :=
  match r with inl errs => errs | inr _ => [] end.

(** Validation of the body against [UserInput]: every field is checked and
    all errors are reported together. *)
Definition validate_UserInput (body : json) : ValidationError + UserInput :=
  match body with
  | JObject fields =>
      let m := required_str "message" fields in
      let r := defaulted_str "role" "user" fields in
      let c := required_str "conversation_id" fields in
      match m, r, c with
      | inr m', inr r', inr c' => inr (mkUserInput m' r' c')
      | _, _, _ => inl (errors_of m ++ errors_of r ++ errors_of c)
      end
  | _ => inl [("body", model_attributes_type)]
  end.

(** What the caller of [POST /chat/] receives. *)
Inductive Response :=
  | Ok (body : ChatResult)
  | Error (status : nat) (detail : string)
  | Unprocessable (errors : ValidationError).

(** The handler run on a validated input, its exception turned into the
    error response. *)
Definition handle (groq : Groq) (input : UserInput) (w : World) : Response * World :=
  match chat groq input w with
  | (inr result, w') => (Ok result, w')
  | (inl (HTTPException status detail), w') => (Error status detail, w')
  | (inl (Exception _), w') => (Error 500 "Internal Server Error", w')
  end.

(** [POST /chat/]: the body is validated before the handler runs. *)
Definition post_chat (groq : Groq) (body : json) (w : World) : Response * World :=
  match validate_UserInput body with
  | inl errs => (Unprocessable errs, w)
  | inr input => handle groq input w
  end.

(** A sequence of requests, served one after the other. *)
Fixpoint serve (calls : list (Groq * UserInput)) (w : World) : list Response * World :=
  match calls with
  | [] => ([], w)
  | (groq, input) :: rest =>
      let (r, w') := handle groq input w in
      let (rs, w'') := serve rest w' in
      (r :: rs, w'')
  end.

(** * Notions used by the statements *)

(** ** Sessions and histories *)

(** The session a request on [key] works on: the stored one, or the one
    created on a miss. *)
Definition session_of (w : World) (key : string) : Conversation :=
  default new_Conversation (conversations w !! key).

(** The user turn a request adds. *)
Definition user_turn (input : UserInput) : Message :=
  mkMessage (input_role input) (message input).

(** The two entries a successful exchange adds. *)
Definition turn (input : UserInput) (reply : string) : list Message :=
  [user_turn input; mkMessage "assistant" reply].

(** The entries that a run of successful exchanges adds. *)
Definition turns (calls : list (Groq * UserInput)) (replies : list string)
  : list Message :=
  concat (zip_with (fun call reply => turn call.2 reply) calls replies).

(** The history the handler sends to the collaborator for a request: the
    session's messages with the user turn appended. *)
Definition history_sent (w : World) (input : UserInput) : list Message :=
  messages (session_of w (conversation_id input)) ++ [user_turn input].

(** The store after a lookup-or-create on [key]. *)
Definition with_session (w : World) (key : string) : World :=
  mkWorld (<[key := session_of w key]> (conversations w)) (requests w).

(** The world once the user turn is stored and the history was sent. *)
Definition after_user_turn (w : World) (input : UserInput) : World :=
  let c := session_of w (conversation_id input) in
  mkWorld (<[conversation_id input :=
               mkConversation (messages c ++ [user_turn input]) (active c)]>
             (conversations w))
          (requests w ++ [messages c ++ [user_turn input]]).

(** The world once the reply is stored as well. *)
Definition after_reply (w : World) (input : UserInput) (reply : string) : World :=
  let c := session_of w (conversation_id input) in
  mkWorld (<[conversation_id input :=
               mkConversation (messages c ++ turn input reply) (active c)]>
             (conversations w))
          (requests w ++ [messages c ++ [user_turn input]]).

(** ** The collaborator seen from the handler *)

(** The outcome of the whole collaborator invocation on a history: the
    failure raised by the call or by the stream, or the assembled text. *)
Definition upstream (groq : Groq) (history : list Message) : exn + string :=
  match groq history with
  | inl msg => inl (Exception msg)
  | inr completion => consume completion ""
  end.

(** The texts joined in order, nothing between them. *)
Definition join (texts : list string) : string := foldr String.append "" texts.

(** The text of a chunk: the content of its first choice, when there is one. *)
Definition fragment (chunk : Chunk) : option string :=
  match chunk with
  | [] => None
  | choice :: _ => delta_content choice
  end.

(** The stream that yields the given chunks and ends. *)
Fixpoint stream_of_chunks (chunks : list Chunk) : Stream :=
  match chunks with
  | [] => StreamEnd
  | chunk :: rest => StreamYield chunk (stream_of_chunks rest)
  end.

(** The stream of one-choice chunks that carry the given contents, a text or
    [None] each, and ends. *)
Fixpoint stream_of (fragments : list (option string)) : Stream :=
  match fragments with
  | [] => StreamEnd
  | d :: rest => StreamYield [mkChoice d] (stream_of rest)
  end.

(** The texts of the fragments that carry one. *)
Definition present_texts (fragments : list (option string)) : list string :=
  omap id fragments.

(** ** Runs of the service *)

(** Every collaborator invocation of a run succeeds: each one, on the history
    it is sent at its turn, produces a whole reply. *)
Fixpoint upstream_succeeds (calls : list (Groq * UserInput)) (w : World) : Prop :=
  match calls with
  | [] => True
  | (groq, input) :: rest =>
      (exists reply, upstream groq (history_sent w input) = inr reply)
      /\ upstream_succeeds rest (handle groq input w).2
  end.

(** One step of the service: any request, with any behaviour of the
    collaborator. *)
Inductive step : World -> World -> Prop :=
  | step_post_chat groq body w :
      step w (post_chat groq body w).2
  | step_get_or_create key w :
      step w (get_or_create_conversation key w).2.

(** The states the service can be in, from an empty store. *)
Inductive reachable : World -> Prop :=
  | reachable_initial : reachable initial_world
  | reachable_step w w' : reachable w -> step w w' -> reachable w'.

(** A world whose sessions extend those of [w] by appended entries only, the
    flags and the known keys kept. *)
Definition extends (w w' : World) : Prop :=
  forall key,
    (exists added,
       session_of w' key =
         mkConversation (messages (session_of w key) ++ added)
                        (active (session_of w key)))
    /\ (is_Some (conversations w !! key) -> is_Some (conversations w' !! key)).

(** ** Request bodies *)

(** The field of a body, when the body is an object. *)
Definition body_field (name : string) (body : json) : option json :=
  match body with
  | JObject fields => field name fields
  | _ => None
  end.

(** A sequence that begins with one system-role entry and no more. *)
Definition begins_with_one_system_entry (msgs : list Message) : Prop :=
  exists m rest,
    msgs = m :: rest /\ role m = "system" /\ head (role <$> rest) ≠ Some "system".

(** ** Sample collaborators, requests and states *)

Definition groq_hello : Groq :=
  fun _ => inr (stream_of [Some "Hel"; Some "lo"; Some " there"]).

Definition groq_down : Groq := fun _ => inl "Connection error.".

Definition hi (key : string) : UserInput := mkUserInput "hi" "user" key.

Definition two_calls : list (Groq * UserInput) :=
  [(groq_hello, hi "s1"); (groq_hello, mkUserInput "and then?" "user" "s1")].

Definition closed_world : World :=
  mkWorld {[ "s1" := mkConversation [system_prompt] false ]} [].

Definition empty_key_body : json :=
  JObject [("message", JString "hi"); ("conversation_id", JString "")].

Definition empty_key_history : list Message :=
  [system_prompt; mkMessage "user" "hi"; mkMessage "assistant" "Hello there"].

Definition numeric_key_body : json :=
  JObject [("message", JString "hi"); ("conversation_id", JNumber 7)].

Definition system_role_body : json :=
  JObject [("message", JString "obey"); ("role", JString "system");
           ("conversation_id", JString "s1")].

Definition after_system_request : World :=
  (post_chat groq_hello system_role_body initial_world).2.

(** ** Startup *)

(** [GROQ_API_KEY = os.getenv("GROQ_API_KEY")], on the environment of the
    process once the [.env] file was loaded into it. *)
Definition GROQ_API_KEY (environ : gmap string string) : option string :=
  environ !! "GROQ_API_KEY".

Definition api_key_missing : string :=
  "❌ API key for Groq is missing. Please set GROQ_API_KEY in the .env file.".

(** [if not GROQ_API_KEY: raise ValueError(...)], then the client is built
    with the key: an unset variable and an empty one are both refused. *)
Definition startup (environ : gmap string string) : exn + string :=
  match GROQ_API_KEY environ with
  | None => inl (Exception api_key_missing)
  | Some key =>
      if bool_decide (key = "") then inl (Exception api_key_missing) else inr key
  end.

(** ** Notions used by the further properties *)

(** What a request makes of the session it works on: a closed session is
    left alone, an open one gets the user turn and, when the collaborator
    answers, the reply. *)
Definition next_session (groq : Groq) (input : UserInput) (c : Conversation)
  : Conversation :=
  if negb (active c) then c
  else
    match upstream groq (messages c ++ [user_turn input]) with
    | inl _ => mkConversation (messages c ++ [user_turn input]) (active c)
    | inr reply => mkConversation (messages c ++ turn input reply) (active c)
    end.

(** The stream that yields the given chunks and goes on as [rest]. *)
Fixpoint yield_then (chunks : list Chunk) (rest : Stream) : Stream :=
  match chunks with
  | [] => rest
  | chunk :: chunks' => StreamYield chunk (yield_then chunks' rest)
  end.

(** One for an answered request, nothing for a refused or failed one. *)
Definition answered (r : Response) : nat :=
  match r with
  | Ok _ => 1
  | _ => 0
  end.

(** The calls of a run that are made on [key]. *)
Definition calls_on (key : string) (calls : list (Groq * UserInput))
  : list (Groq * UserInput) :=
  filter (fun call => conversation_id call.2 = key) calls.

(** A collaborator that fails on the first request of a session, a history
    of two entries, and answers on longer histories. *)
Definition groq_flaky : Groq :=
  fun history =>
    if bool_decide (length history = 2) then inl "Connection error."
    else inr (stream_of [Some "Hello again"]).

(** * Properties *)

Example str_HTTPException :
  str (HTTPException 500 "x") = "500: x".
Proof. reflexivity. Qed.

Example post_chat_first_request :
  post_chat groq_hello
    (JObject [("message", JString "hi"); ("conversation_id", JString "s1")])
    initial_world
  = (Ok (mkChatResult "Hello there" "s1"),
     mkWorld {[ "s1" := mkConversation
                          [system_prompt; mkMessage "user" "hi";
                           mkMessage "assistant" "Hello there"] true ]}
             [[system_prompt; mkMessage "user" "hi"]]).
Proof. reflexivity. Qed.

Example post_chat_stream_breaks :
  (post_chat (fun _ => inr (StreamYield [mkChoice (Some "Hel")] (StreamRaise "reset")))
     (JObject [("message", JString "hi"); ("conversation_id", JString "s1")])
     initial_world).1
  = Error 500 "500: Error with Groq API: reset".
Proof. reflexivity. Qed.

Example post_chat_chunk_without_choice :
  (post_chat (fun _ => inr (StreamYield [] StreamEnd))
     (JObject [("message", JString "hi"); ("conversation_id", JString "s1")])
     initial_world).1
  = Error 500 "500: Error with Groq API: list index out of range".
Proof. reflexivity. Qed.

Example validate_reports_every_field :
  validate_UserInput (JObject [("role", JNull)])
  = inl [("message", missing); ("role", string_type); ("conversation_id", missing)].
Proof. reflexivity. Qed.

(** ** Running the handler *)

Ltac run_monad :=
  unfold mbind, M_bind, mret, M_ret, bind, ret, raise, try_except, lift_result,
    contains, getitem, setitem, create; simpl.

Lemma world_eta w : mkWorld (conversations w) (requests w) = w.
Proof. by destruct w. Qed.

Lemma conversation_eta c : mkConversation (messages c) (active c) = c.
Proof. by destruct c. Qed.

Lemma session_of_present w key c :
  conversations w !! key = Some c -> session_of w key = c.
Proof. intros Hc. unfold session_of. by rewrite Hc. Qed.

Lemma with_session_present w key c :
  conversations w !! key = Some c -> with_session w key = w.
Proof.
  intros Hc. unfold with_session, session_of. rewrite Hc. simpl.
  rewrite insert_id; [apply world_eta | done].
Qed.

Lemma get_or_create_conversation_run key w :
  get_or_create_conversation key w = (inr key, with_session w key).
Proof.
  unfold get_or_create_conversation, with_session, session_of. run_monad.
  destruct (conversations w !! key) as [c|] eqn:Hc; simpl.
  - rewrite Hc. rewrite insert_id by done. by rewrite world_eta.
  - by rewrite lookup_insert_eq.
Qed.

(** A lookup-or-create leaves every stored session as it is. *)
Lemma get_or_create_keeps key0 w key c :
  conversations w !! key = Some c ->
  conversations (get_or_create_conversation key0 w).2 !! key = Some c.
Proof.
  intros Hc. rewrite get_or_create_conversation_run. unfold with_session. simpl.
  destruct (decide (key0 = key)) as [->|Hne].
  - rewrite lookup_insert_eq. by rewrite (session_of_present _ _ _ Hc).
  - by rewrite lookup_insert_ne.
Qed.

Lemma messages_append_run key m c w :
  conversations w !! key = Some c ->
  messages_append key m w =
    (inr tt, mkWorld (<[key := mkConversation (messages c ++ [m]) (active c)]>
                        (conversations w)) (requests w)).
Proof. intros Hc. unfold messages_append. run_monad. by rewrite Hc. Qed.

Lemma query_groq_api_run groq key c w :
  conversations w !! key = Some c ->
  query_groq_api groq key w =
    (match upstream groq (messages c) with
     | inl e => inl (HTTPException 500 ("Error with Groq API: " +:+ str e))
     | inr text => inr text
     end,
     mkWorld (conversations w) (requests w ++ [messages c])).
Proof.
  intros Hc. unfold query_groq_api, upstream. run_monad. rewrite Hc.
  destruct (groq (messages c)) as [msg|completion]; simpl; [done|].
  by destruct (consume completion "").
Qed.

Section Handler.
Context (groq : Groq) (input : UserInput) (w : World).

Lemma chat_run :
  chat groq input w =
    let c := session_of w (conversation_id input) in
    if negb (active c) then (inl (HTTPException 400 session_ended), w)
    else
      match upstream groq (messages c ++ [user_turn input]) with
      | inl e =>
          (inl (HTTPException 500 (str (HTTPException 500 ("Error with Groq API: " +:+ str e)))),
           after_user_turn w input)
      | inr reply =>
          (inr (mkChatResult reply (conversation_id input)), after_reply w input reply)
      end.
Proof.
  unfold chat. unfold mbind at 1, M_bind at 1, bind at 1.
  rewrite get_or_create_conversation_run.
  set (key := conversation_id input). set (c := session_of w key).
  assert (Hc : conversations (with_session w key) !! key = Some c)
    by (unfold with_session; simpl; apply lookup_insert_eq).
  unfold mbind at 1, M_bind at 1, bind at 1. unfold getitem at 1. rewrite Hc.
  cbv zeta. destruct (active c) eqn:Hact; simpl.
  - unfold try_except.
    unfold mbind at 1, M_bind at 1, bind at 1.
    rewrite (messages_append_run _ _ _ _ Hc).
    unfold mbind at 1, M_bind at 1, bind at 1.
    erewrite query_groq_api_run by (simpl; apply lookup_insert_eq).
    simpl. fold (user_turn input).
    destruct (upstream groq (messages c ++ [user_turn input])) as [e|reply]; simpl.
    + unfold raise, after_user_turn. fold key. fold c.
      rewrite insert_insert_eq, Hact. done.
    + unfold mbind at 1, M_bind at 1, bind at 1.
      erewrite messages_append_run by (simpl; apply lookup_insert_eq).
      simpl. unfold mret, M_ret, ret, after_reply, turn. fold key. fold c.
      rewrite !insert_insert_eq, Hact, <- app_assoc. done.
  - unfold raise. f_equal.
    unfold session_of in c. subst c.
    destruct (conversations w !! key) as [c|] eqn:Hw; simpl in *.
    + by apply with_session_present with c.
    + discriminate.
Qed.

Lemma handle_run :
  handle groq input w =
    let c := session_of w (conversation_id input) in
    if negb (active c) then (Error 400 session_ended, w)
    else
      match upstream groq (messages c ++ [user_turn input]) with
      | inl e =>
          (Error 500 (str (HTTPException 500 ("Error with Groq API: " +:+ str e))),
           after_user_turn w input)
      | inr reply =>
          (Ok (mkChatResult reply (conversation_id input)), after_reply w input reply)
      end.
Proof.
  unfold handle. rewrite chat_run. cbv zeta.
  destruct (negb _); [done|]. by destruct (upstream _ _).
Qed.

Lemma handle_world : (handle groq input w).2 = (chat groq input w).2.
Proof.
  unfold handle. destruct (chat groq input w) as [[[status detail|msg]|result] w']; done.
Qed.

(** On an open session exactly one request leaves the process, and it carries
    [history_sent]. *)
Lemma chat_sends_history :
  active (session_of w (conversation_id input)) = true ->
  requests (chat groq input w).2 = requests w ++ [history_sent w input].
Proof.
  intros Hact. rewrite chat_run. cbv zeta. rewrite Hact. simpl.
  fold (history_sent w input). by destruct (upstream _ _).
Qed.

(** Once the handler has run, the session of the request is in the store. *)
Lemma chat_present :
  is_Some (conversations (chat groq input w).2 !! conversation_id input).
Proof.
  rewrite chat_run. cbv zeta.
  destruct (active (session_of w (conversation_id input))) eqn:Hact; simpl.
  - destruct (upstream _ _); simpl; rewrite lookup_insert_eq; eauto.
  - unfold session_of in Hact.
    destruct (conversations w !! conversation_id input); [eauto|done].
Qed.

(** What a request appends to a stored session: nothing, its user turn, or
    its user turn and the reply. *)
Lemma chat_appends key c :
  conversations w !! key = Some c ->
  exists added,
    conversations (chat groq input w).2 !! key
      = Some (mkConversation (messages c ++ added) (active c))
    /\ (added = [] \/ added = [user_turn input]
        \/ exists reply, added = turn input reply).
Proof.
  intros Hc. rewrite chat_run. cbv zeta.
  assert (Hsame : conversations w !! key
                  = Some (mkConversation (messages c ++ []) (active c)))
    by (by rewrite app_nil_r, conversation_eta).
  destruct (negb _); simpl; [eauto|].
  destruct (upstream _ _) as [e|reply]; simpl;
    (destruct (decide (conversation_id input = key)) as [<-|Hne];
     [rewrite lookup_insert_eq, (session_of_present _ _ _ Hc); eauto 6
     |rewrite lookup_insert_ne by done; eauto]).
Qed.

Lemma session_of_after_reply reply :
  session_of (after_reply w input reply) (conversation_id input) =
    mkConversation (messages (session_of w (conversation_id input)) ++ turn input reply)
                   (active (session_of w (conversation_id input))).
Proof. unfold session_of at 1, after_reply. simpl. by rewrite lookup_insert_eq. Qed.

Lemma session_of_after_user_turn :
  session_of (after_user_turn w input) (conversation_id input) =
    mkConversation (history_sent w input)
                   (active (session_of w (conversation_id input))).
Proof. unfold session_of at 1, after_user_turn. simpl. by rewrite lookup_insert_eq. Qed.

End Handler.

(** ** Text assembly *)

Lemma string_app_assoc (a b c : string) : (a +:+ b) +:+ c = a +:+ (b +:+ c).
Proof.
  induction a as [|x a IH]; [reflexivity|].
  change (String x ((a +:+ b) +:+ c) = String x (a +:+ (b +:+ c))).
  by rewrite IH.
Qed.

Lemma string_app_empty_r (a : string) : a +:+ "" = a.
Proof.
  induction a as [|x a IH]; [reflexivity|].
  change (String x (a +:+ "") = String x a).
  by rewrite IH.
Qed.

Lemma or_empty_default (x : option string) : or_empty x = default "" x.
Proof.
  destruct x as [s|]; simpl; [|done].
  case_bool_decide; by subst.
Qed.

Lemma consume_chunks (chunks : list Chunk) (acc : string) :
  Forall (fun chunk => chunk ≠ []) chunks ->
  consume (stream_of_chunks chunks) acc = inr (acc +:+ join (omap fragment chunks)).
Proof.
  intros Hall. revert acc.
  induction Hall as [|chunk rest Hne _ IH]; intros acc; simpl.
  - by rewrite string_app_empty_r.
  - destruct chunk as [|choice others]; [done|]. simpl.
    rewrite IH, or_empty_default, string_app_assoc.
    by destruct (delta_content choice).
Qed.

Lemma stream_of_as_chunks (fragments : list (option string)) :
  stream_of fragments = stream_of_chunks ((fun d => [mkChoice d]) <$> fragments).
Proof. induction fragments as [|d rest IH]; simpl; [done | by rewrite IH]. Qed.

Lemma consume_stream_of (fragments : list (option string)) :
  consume (stream_of fragments) "" = inr (join (present_texts fragments)).
Proof.
  rewrite stream_of_as_chunks, consume_chunks.
  - f_equal.
    change (join (omap fragment ((fun d => [mkChoice d]) <$> fragments))
            = join (present_texts fragments)).
    f_equal. unfold present_texts.
    induction fragments as [|[s|] rest IH]; [done| |exact IH].
    rewrite fmap_cons. simpl. f_equal. exact IH.
  - apply Forall_fmap, Forall_forall. by intros d _.
Qed.

Lemma present_texts_all (texts : list string) :
  present_texts (Some <$> texts) = texts.
Proof.
  unfold present_texts. induction texts as [|s rest IH]; [done|].
  rewrite fmap_cons. simpl. f_equal. exact IH.
Qed.

(** ** What one request does to the sessions *)

Lemma extends_refl w : extends w w.
Proof.
  intros key. split; [|done].
  exists []. by rewrite app_nil_r, conversation_eta.
Qed.

Lemma extends_trans w1 w2 w3 : extends w1 w2 -> extends w2 w3 -> extends w1 w3.
Proof.
  intros H12 H23 key.
  destruct (H12 key) as [[a12 E12] P12]. destruct (H23 key) as [[a23 E23] P23].
  split; [|auto].
  exists (a12 ++ a23). rewrite E23, E12. simpl. by rewrite app_assoc.
Qed.

Lemma extends_insert w reqs key0 added0 :
  extends w
    (mkWorld (<[key0 := mkConversation (messages (session_of w key0) ++ added0)
                                       (active (session_of w key0))]>
                (conversations w)) reqs).
Proof.
  intros key. unfold session_of at 1. simpl.
  destruct (decide (key0 = key)) as [->|Hne].
  - rewrite lookup_insert_eq. simpl. split; eauto.
  - rewrite lookup_insert_ne by done. split; [|done].
    exists []. rewrite app_nil_r, conversation_eta. done.
Qed.

Lemma extends_present w w' key c :
  extends w w' ->
  conversations w !! key = Some c ->
  exists added,
    conversations w' !! key = Some (mkConversation (messages c ++ added) (active c)).
Proof.
  intros Hext Hc. destruct (Hext key) as [[added Hadded] Hkeep].
  destruct Hkeep as [c' Hc']; [eauto|].
  rewrite (session_of_present _ _ _ Hc'), (session_of_present _ _ _ Hc) in Hadded.
  exists added. by rewrite Hc', Hadded.
Qed.

Lemma chat_extends groq input w : extends w (chat groq input w).2.
Proof.
  rewrite chat_run. cbv zeta.
  destruct (negb _); simpl; [apply extends_refl|].
  destruct (upstream _ _); simpl; apply extends_insert.
Qed.

Lemma post_chat_extends groq body w : extends w (post_chat groq body w).2.
Proof.
  unfold post_chat. destruct (validate_UserInput body) as [errs|input]; simpl.
  - apply extends_refl.
  - rewrite handle_world. apply chat_extends.
Qed.

Lemma get_or_create_extends key0 w :
  extends w (get_or_create_conversation key0 w).2.
Proof.
  rewrite get_or_create_conversation_run. simpl. unfold with_session.
  pose proof (extends_insert w (requests w) key0 []) as Hext.
  by rewrite app_nil_r, conversation_eta in Hext.
Qed.

Lemma step_extends w w' : step w w' -> extends w w'.
Proof.
  intros [groq body w0|key w0]; [apply post_chat_extends|apply get_or_create_extends].
Qed.

(** In every reachable state, the session a key resolves to starts with the
    system prompt and is active. *)
Lemma reachable_sessions w :
  reachable w ->
  forall key, exists rest,
    session_of w key = mkConversation (system_prompt :: rest) true.
Proof.
  induction 1 as [|w w' _ IH Hstep]; intros key.
  - by exists [].
  - destruct (IH key) as [rest Hrest].
    destruct (step_extends _ _ Hstep key) as [[added Hadded] _].
    exists (rest ++ added). rewrite Hadded, Hrest. done.
Qed.

Lemma reachable_after_system_request : reachable after_system_request.
Proof.
  apply (reachable_step initial_world); [apply reachable_initial|].
  apply step_post_chat.
Defined.

(** ** Several requests on one session *)

Lemma serve_world_cons groq input rest w :
  (serve ((groq, input) :: rest) w).2 = (serve rest (handle groq input w).2).2.
Proof.
  simpl. destruct (handle groq input w) as [r w']. simpl.
  by destruct (serve rest w') as [rs w''].
Qed.

Lemma serve_extends calls : forall w, extends w (serve calls w).2.
Proof.
  induction calls as [|[groq input] rest IH]; intros w.
  - apply extends_refl.
  - rewrite serve_world_cons. eapply extends_trans; [|apply IH].
    rewrite handle_world. apply chat_extends.
Qed.

Lemma serve_present key calls w :
  calls ≠ [] ->
  Forall (fun call => conversation_id call.2 = key) calls ->
  is_Some (conversations (serve calls w).2 !! key).
Proof.
  destruct calls as [|[groq input] rest]; [done|]. intros _ Hkey.
  apply Forall_cons in Hkey as [Hk _]. simpl in Hk.
  rewrite serve_world_cons.
  apply (serve_extends rest (handle groq input w).2 key).
  rewrite handle_world, <- Hk. apply chat_present.
Qed.

Lemma length_turns calls replies :
  length replies = length calls -> length (turns calls replies) = 2 * length calls.
Proof.
  unfold turns. revert replies.
  induction calls as [|call calls IH]; intros [|reply replies] Hlen;
    simpl in *; try done.
  rewrite IH by lia. lia.
Qed.

Lemma serve_open_session key calls : forall w,
  Forall (fun call => conversation_id call.2 = key) calls ->
  active (session_of w key) = true ->
  upstream_succeeds calls w ->
  exists replies,
    length replies = length calls
    /\ (serve calls w).1 = (fun reply => Ok (mkChatResult reply key)) <$> replies
    /\ session_of (serve calls w).2 key =
         mkConversation (messages (session_of w key) ++ turns calls replies) true
    /\ (forall i groq input reply,
          calls !! i = Some (groq, input) -> replies !! i = Some reply ->
          upstream groq (messages (session_of w key)
                           ++ turns (take i calls) replies ++ [user_turn input])
            = inr reply).
Proof.
  induction calls as [|[groq input] rest IH]; intros w Hkey Hact Hup.
  - exists []. repeat split; try done.
    simpl. unfold turns. simpl. rewrite app_nil_r.
    destruct (session_of w key) as [msgs act]. simpl in *. by subst.
  - apply Forall_cons in Hkey as [Hk Hkey]. simpl in Hk.
    destruct Hup as [[reply Hreply] Hup].
    assert (Hrun : handle groq input w =
              (Ok (mkChatResult reply key), after_reply w input reply)).
    { rewrite handle_run. cbv zeta. rewrite Hk, Hact. simpl.
      unfold history_sent in Hreply. rewrite Hk in Hreply. by rewrite Hreply. }
    rewrite Hrun in Hup. simpl in Hup.
    assert (Hsess : session_of (after_reply w input reply) key =
              mkConversation (messages (session_of w key) ++ turn input reply) true).
    { rewrite <- Hk at 1. rewrite session_of_after_reply, Hk. by rewrite Hact. }
    destruct (IH (after_reply w input reply) Hkey) as (replies & Hlen & Hrs & Hfin & Hnth).
    { by rewrite Hsess. }
    { done. }
    exists (reply :: replies). simpl. rewrite Hrun.
    destruct (serve rest (after_reply w input reply)) as [rs w''] eqn:Hserve.
    simpl in *. repeat split.
    + by rewrite Hlen.
    + by rewrite Hrs.
    + rewrite Hfin, Hsess. simpl. unfold turns. simpl.
      by rewrite <- app_assoc.
    + intros [|i] g inp r Hcall Hr; simpl in *.
      * injection Hcall as <- <-. injection Hr as <-.
        unfold turns. simpl. unfold history_sent in Hreply.
        by rewrite Hk in Hreply.
      * specialize (Hnth i g inp r Hcall Hr). rewrite Hsess in Hnth. simpl in Hnth.
        unfold turns in *. simpl. rewrite <- app_assoc in Hnth. exact Hnth.
Qed.

(** ** Validation *)

Lemma validate_needs_string_key body :
  (forall key, body_field "conversation_id" body ≠ Some (JString key)) ->
  exists errs, validate_UserInput body = inl errs.
Proof.
  intros Hkey. destruct body as [| | | | |fields]; simpl; eauto.
  simpl in Hkey.
  assert (exists errs, required_str "conversation_id" fields = inl errs)
    as [errs Herrs].
  { unfold required_str.
    destruct (field "conversation_id" fields) as [v|]; [|eauto].
    destruct v; simpl; eauto. by destruct (Hkey s). }
  rewrite Herrs.
  destruct (required_str "message" fields), (defaulted_str "role" "user" fields);
    simpl; eauto.
Qed.

Lemma validate_accepts fields text r key :
  field "message" fields = Some (JString text) ->
  defaulted_str "role" "user" fields = inr r ->
  field "conversation_id" fields = Some (JString key) ->
  validate_UserInput (JObject fields) = inr (mkUserInput text r key).
Proof.
  intros Hm Hr Hc. unfold validate_UserInput, required_str.
  by rewrite Hm, Hr, Hc.
Qed.

(** * The claims *)

(** C1: [N] requests on one key that the store has never seen, every
    collaborator call succeeding, are all answered with the reply, and leave
    the session with [1 + 2N] messages: the system prompt, then for each
    request in order its message under the request's role followed by the
    assistant message holding the reply the collaborator gave on the history
    up to that user turn. *)
Theorem successful_requests_alternate key calls w :
  conversations w !! key = None ->
  Forall (fun call => conversation_id call.2 = key) calls ->
  upstream_succeeds calls w ->
  exists replies,
    length replies = length calls
    /\ (serve calls w).1 = (fun reply => Ok (mkChatResult reply key)) <$> replies
    /\ session_of (serve calls w).2 key
       = mkConversation (system_prompt :: turns calls replies) true
    /\ (calls ≠ [] ->
        conversations (serve calls w).2 !! key
        = Some (mkConversation (system_prompt :: turns calls replies) true))
    /\ length (system_prompt :: turns calls replies) = 1 + 2 * length calls
    /\ (forall i groq input reply,
          calls !! i = Some (groq, input) -> replies !! i = Some reply ->
          upstream groq
            (system_prompt :: turns (take i calls) replies ++ [user_turn input])
          = inr reply).
Proof.
  intros Hfresh Hkey Hup.
  assert (Hnew : session_of w key = new_Conversation)
    by (unfold session_of; by rewrite Hfresh).
  destruct (serve_open_session key calls w Hkey) as (replies & Hlen & Hrs & Hfin & Hnth).
  { by rewrite Hnew. }
  { done. }
  rewrite Hnew in Hfin, Hnth. simpl in Hfin, Hnth.
  exists replies. repeat split; try done.
  - intros Hne. destruct (serve_present key calls w Hne Hkey) as [c Hc].
    rewrite Hc. f_equal. rewrite <- Hfin. symmetry. by apply session_of_present.
  - simpl. rewrite length_turns by done. lia.
Qed.

Lemma successful_requests_alternate_witness :
  exists replies,
    length replies = 2
    /\ (serve two_calls initial_world).1
       = (fun reply => Ok (mkChatResult reply "s1")) <$> replies
    /\ session_of (serve two_calls initial_world).2 "s1"
       = mkConversation (system_prompt :: turns two_calls replies) true
    /\ (two_calls ≠ [] ->
        conversations (serve two_calls initial_world).2 !! "s1"
        = Some (mkConversation (system_prompt :: turns two_calls replies) true))
    /\ length (system_prompt :: turns two_calls replies) = 1 + 2 * 2
    /\ (forall i groq input reply,
          two_calls !! i = Some (groq, input) -> replies !! i = Some reply ->
          upstream groq
            (system_prompt :: turns (take i two_calls) replies ++ [user_turn input])
          = inr reply).
Proof.
  apply (successful_requests_alternate "s1" two_calls initial_world).
  - reflexivity.
  - repeat constructor.
  - simpl. split; [eexists; reflexivity|]. split; [eexists; reflexivity|exact I].
Defined.

(** C2: when the collaborator fails on an open session, the handler raises the
    server error 500 whose detail embeds the failure description, and the
    session afterwards is the prior sequence with the user turn appended and
    nothing else: no assistant turn, no rollback. *)
Theorem upstream_failure_keeps_user_turn groq input w e :
  active (session_of w (conversation_id input)) = true ->
  upstream groq (history_sent w input) = inl e ->
  exists w',
    chat groq input w
      = (inl (HTTPException 500 ("500: Error with Groq API: " +:+ str e)), w')
    /\ conversations w' !! conversation_id input
      = Some (mkConversation
                (messages (session_of w (conversation_id input)) ++ [user_turn input])
                true)
    /\ length (messages (session_of w' (conversation_id input)))
      = length (messages (session_of w (conversation_id input))) + 1.
Proof.
  intros Hact Hfail. exists (after_user_turn w input).
  rewrite chat_run. cbv zeta. rewrite Hact. simpl.
  unfold history_sent in Hfail. rewrite Hfail.
  split; [done|]. rewrite session_of_after_user_turn. simpl.
  unfold after_user_turn. simpl. rewrite lookup_insert_eq, Hact.
  split; [done|]. unfold history_sent. by rewrite length_app.
Qed.

Lemma upstream_failure_keeps_user_turn_witness :
  exists w',
    chat groq_down (hi "s1") initial_world
      = (inl (HTTPException 500 "500: Error with Groq API: Connection error."), w')
    /\ conversations w' !! "s1"
      = Some (mkConversation [system_prompt; mkMessage "user" "hi"] true)
    /\ length (messages (session_of w' "s1")) = 2.
Proof.
  apply (upstream_failure_keeps_user_turn groq_down (hi "s1") initial_world
           (Exception "Connection error.")); reflexivity.
Defined.

(** C3, as stated, fails: a request whose session key is the empty string is
    not rejected.  It is served, and a session is created under the empty
    key. *)
Lemma empty_session_key_is_served :
  body_field "conversation_id" empty_key_body = Some (JString "")
  /\ (post_chat groq_hello empty_key_body initial_world).1
     = Ok (mkChatResult "Hello there" "")
  /\ conversations (post_chat groq_hello empty_key_body initial_world).2 !! ""
     = Some (mkConversation empty_key_history true)
  /\ ~ (exists errs,
          post_chat groq_hello empty_key_body initial_world
          = (Unprocessable errs, initial_world)).
Proof.
  repeat split; try reflexivity.
  intros [errs Herrs]. discriminate Herrs.
Qed.

(** C3, amended: the session key must be a string.  A request whose
    [conversation_id] is missing or is not a string is rejected by validation
    and the world is left as it was; a request whose [conversation_id] is any
    string, the empty one included, passes validation when its other fields
    do, and is handed to the handler under that key. *)
Theorem session_key_must_be_a_string :
  (forall groq body w,
     (forall key, body_field "conversation_id" body ≠ Some (JString key)) ->
     exists errs, post_chat groq body w = (Unprocessable errs, w))
  /\ (forall groq fields text r key w,
        field "message" fields = Some (JString text) ->
        defaulted_str "role" "user" fields = inr r ->
        field "conversation_id" fields = Some (JString key) ->
        post_chat groq (JObject fields) w
        = handle groq (mkUserInput text r key) w).
Proof.
  split.
  - intros groq body w Hkey.
    destruct (validate_needs_string_key body Hkey) as [errs Herrs].
    exists errs. unfold post_chat. by rewrite Herrs.
  - intros groq fields text r key w Hm Hr Hc. unfold post_chat.
    by rewrite (validate_accepts fields text r key Hm Hr Hc).
Qed.

Lemma session_key_must_be_a_string_witness :
  (exists errs,
     post_chat groq_hello numeric_key_body initial_world
     = (Unprocessable errs, initial_world))
  /\ post_chat groq_hello empty_key_body initial_world
     = handle groq_hello (mkUserInput "hi" "user" "") initial_world.
Proof.
  split.
  - apply (proj1 session_key_must_be_a_string groq_hello numeric_key_body
             initial_world).
    intros key. discriminate.
  - apply (proj2 session_key_must_be_a_string groq_hello
             [("message", JString "hi"); ("conversation_id", JString "")]
             "hi" "user" "" initial_world); reflexivity.
Defined.

(** C4: [get_or_create_conversation] never fails: it returns the session
    stored under the key.  For a key absent from the store, that session has
    exactly one message, the system-role prompt, and is active. *)
Theorem get_or_create_never_fails_and_fresh (key : string) (w : World) :
  (exists w', get_or_create_conversation key w = (inr key, w')
              /\ is_Some (conversations w' !! key))
  /\ (conversations w !! key = None ->
      exists w', get_or_create_conversation key w = (inr key, w')
        /\ conversations w' !! key =
             Some (mkConversation
                     [mkMessage "system" "You are a useful AI assistant."] true)).
Proof.
  rewrite get_or_create_conversation_run. split.
  - eexists. split; [done|]. simpl. rewrite lookup_insert_eq. eauto.
  - intros Hnone. eexists. split; [done|]. simpl.
    unfold session_of. rewrite Hnone. simpl. by rewrite lookup_insert_eq.
Qed.

Lemma get_or_create_never_fails_and_fresh_witness :
  conversations initial_world !! "s1" = None
  /\ exists w', get_or_create_conversation "s1" initial_world = (inr "s1", w')
       /\ conversations w' !! "s1" =
            Some (mkConversation
                    [mkMessage "system" "You are a useful AI assistant."] true).
Proof.
  split; [reflexivity|].
  apply (proj2 (get_or_create_never_fails_and_fresh "s1" initial_world)).
  reflexivity.
Defined.

(** C5: a request whose body has no [conversation_id] field is rejected by
    validation, the missing field reported, and the world is left as it was:
    no session is created and none is modified. *)
Theorem missing_conversation_id_rejected groq fields w :
  field "conversation_id" fields = None ->
  exists errs,
    post_chat groq (JObject fields) w = (Unprocessable errs, w)
    /\ ("conversation_id", missing) ∈ errs
    /\ conversations (post_chat groq (JObject fields) w).2 = conversations w.
Proof.
  intros Hmiss. unfold post_chat, validate_UserInput.
  assert (Hc : required_str "conversation_id" fields
               = inl [("conversation_id", missing)])
    by (unfold required_str; by rewrite Hmiss).
  rewrite Hc.
  destruct (required_str "message" fields), (defaulted_str "role" "user" fields);
    simpl; eexists; (split; [reflexivity|]); (split; [|reflexivity]);
    rewrite ?elem_of_app, ?list_elem_of_singleton; auto.
Qed.

Lemma missing_conversation_id_rejected_witness :
  exists errs,
    post_chat groq_hello (JObject [("message", JString "hi")]) closed_world
    = (Unprocessable errs, closed_world)
    /\ ("conversation_id", missing) ∈ errs
    /\ conversations
         (post_chat groq_hello (JObject [("message", JString "hi")]) closed_world).2
       = conversations closed_world.
Proof.
  apply (missing_conversation_id_rejected groq_hello
           [("message", JString "hi")] closed_world).
  reflexivity.
Defined.

(** C6: on a session whose [active] flag is false, the handler fails with the
    client error 400 and its fixed text; the world is left as it was, so the
    message is not appended and no request is sent to the collaborator. *)
Theorem closed_session_rejected groq input w c :
  conversations w !! conversation_id input = Some c ->
  active c = false ->
  chat groq input w = (inl (HTTPException 400 session_ended), w)
  /\ handle groq input w = (Error 400 session_ended, w)
  /\ conversations (chat groq input w).2 !! conversation_id input = Some c
  /\ requests (chat groq input w).2 = requests w.
Proof.
  intros Hc Hclosed.
  assert (Hrun : chat groq input w = (inl (HTTPException 400 session_ended), w)).
  { rewrite chat_run. cbv zeta.
    by rewrite (session_of_present _ _ _ Hc), Hclosed. }
  unfold handle. rewrite Hrun. done.
Qed.

Lemma closed_session_rejected_witness :
  chat groq_hello (hi "s1") closed_world
    = (inl (HTTPException 400 session_ended), closed_world)
  /\ handle groq_hello (hi "s1") closed_world
    = (Error 400 session_ended, closed_world)
  /\ conversations (chat groq_hello (hi "s1") closed_world).2 !! "s1"
    = Some (mkConversation [system_prompt] false)
  /\ requests (chat groq_hello (hi "s1") closed_world).2 = [].
Proof.
  apply (closed_session_rejected groq_hello (hi "s1") closed_world
           (mkConversation [system_prompt] false)); reflexivity.
Defined.

(** C7: the text fragments yielded by the collaborator are concatenated in
    arrival order, and that one string is the content of the assistant
    message stored last in the session and the response returned; the
    fragments "Hel", "lo", " there" are stored as "Hello there". *)
Theorem fragments_concatenated_in_order :
  (forall (fragments : list string) groq input w,
     active (session_of w (conversation_id input)) = true ->
     groq (history_sent w input) = inr (stream_of (Some <$> fragments)) ->
     exists w' c,
       chat groq input w
         = (inr (mkChatResult (join fragments) (conversation_id input)), w')
       /\ conversations w' !! conversation_id input = Some c
       /\ last (messages c) = Some (mkMessage "assistant" (join fragments)))
  /\ (exists w' c,
       chat groq_hello (hi "s1") initial_world
         = (inr (mkChatResult "Hello there" "s1"), w')
       /\ conversations w' !! "s1" = Some c
       /\ last (messages c) = Some (mkMessage "assistant" "Hello there")).
Proof.
  assert (Hgen : forall (fragments : list string) groq input w,
     active (session_of w (conversation_id input)) = true ->
     groq (history_sent w input) = inr (stream_of (Some <$> fragments)) ->
     exists w' c,
       chat groq input w
         = (inr (mkChatResult (join fragments) (conversation_id input)), w')
       /\ conversations w' !! conversation_id input = Some c
       /\ last (messages c) = Some (mkMessage "assistant" (join fragments))).
  { intros fragments groq input w Hact Hstream.
    assert (Hup : upstream groq (history_sent w input) = inr (join fragments)).
    { unfold upstream. by rewrite Hstream, consume_stream_of, present_texts_all. }
    eexists _, _. rewrite chat_run. cbv zeta. rewrite Hact. simpl.
    unfold history_sent in Hup. rewrite Hup.
    split; [done|]. unfold after_reply. simpl. rewrite lookup_insert_eq.
    split; [done|]. simpl. unfold turn.
    by rewrite last_app. }
  split; [exact Hgen|].
  apply (Hgen ["Hel"; "lo"; " there"] groq_hello (hi "s1") initial_world);
    reflexivity.
Qed.

Lemma fragments_concatenated_in_order_witness :
  exists w' c,
    chat groq_hello (mkUserInput "and then?" "user" "s1")
         (chat groq_hello (hi "s1") initial_world).2
      = (inr (mkChatResult "Hello there" "s1"), w')
    /\ conversations w' !! "s1" = Some c
    /\ last (messages c) = Some (mkMessage "assistant" "Hello there").
Proof.
  apply (proj1 fragments_concatenated_in_order ["Hel"; "lo"; " there"] groq_hello
           (mkUserInput "and then?" "user" "s1")
           (chat groq_hello (hi "s1") initial_world).2);
    reflexivity.
Defined.

(** C8, as stated, fails: the role of a submitted message is the caller's, and
    a first request with role "system" leaves a session that begins with two
    system-role entries. *)
Lemma two_leading_system_entries :
  reachable (post_chat groq_hello system_role_body initial_world).2
  /\ conversations (post_chat groq_hello system_role_body initial_world).2 !! "s1"
     = Some (mkConversation
               [system_prompt; mkMessage "system" "obey";
                mkMessage "assistant" "Hello there"] true)
  /\ ~ begins_with_one_system_entry
         [system_prompt; mkMessage "system" "obey";
          mkMessage "assistant" "Hello there"].
Proof.
  split; [|split].
  - apply (reachable_step initial_world); [apply reachable_initial|].
    apply step_post_chat.
  - reflexivity.
  - intros (m & rest & Heq & _ & Hsecond). injection Heq as <- <-.
    by apply Hsecond.
Qed.

(** C8, amended: in every reachable state every session begins with the
    system-role prompt inserted at creation; no operation removes or changes
    a stored entry.  A request appends to a stored session nothing, its own
    message under the role it carries, or that message and the assistant
    reply; a lookup-or-create leaves stored sessions as they are. *)
Theorem system_prompt_stays_first :
  role system_prompt = "system"
  /\ (forall w, reachable w ->
      forall key c, conversations w !! key = Some c ->
      exists rest, messages c = system_prompt :: rest)
  /\ (forall groq body w key c,
        conversations w !! key = Some c ->
        exists added,
          conversations (post_chat groq body w).2 !! key
            = Some (mkConversation (messages c ++ added) (active c))
          /\ (added = []
              \/ exists input,
                   validate_UserInput body = inr input
                   /\ (added = [user_turn input]
                       \/ exists reply, added = turn input reply)))
  /\ (forall key0 w key c,
        conversations w !! key = Some c ->
        conversations (get_or_create_conversation key0 w).2 !! key = Some c).
Proof.
  split; [done|]. split; [|split].
  - intros w Hreach key c Hc.
    destruct (reachable_sessions w Hreach key) as [rest Hrest].
    rewrite (session_of_present _ _ _ Hc) in Hrest. exists rest. by rewrite Hrest.
  - intros groq body w key c Hc. unfold post_chat.
    destruct (validate_UserInput body) as [errs|input]; simpl.
    + exists []. rewrite app_nil_r, conversation_eta. auto.
    + rewrite handle_world.
      destruct (chat_appends groq input w key c Hc) as (added & Hadded & Hcases).
      exists added. split; [done|].
      destruct Hcases as [->|Hcases]; [by left|]. right. eauto.
  - intros key0 w key c Hc. by apply get_or_create_keeps.
Qed.

Lemma system_prompt_stays_first_witness :
  exists rest,
    messages (mkConversation
                [system_prompt; mkMessage "system" "obey";
                 mkMessage "assistant" "Hello there"] true)
    = system_prompt :: rest.
Proof.
  apply (proj1 (proj2 system_prompt_stays_first)
           after_system_request reachable_after_system_request "s1").
  reflexivity.
Defined.

(** C9: a session is created active; no operation changes the flag of a
    stored session; so in every reachable state every session of the mapping
    is active. *)
Theorem active_never_cleared :
  active new_Conversation = true
  /\ (forall w w', step w w' ->
      forall key c, conversations w !! key = Some c ->
      exists c', conversations w' !! key = Some c' /\ active c' = active c)
  /\ (forall w, reachable w ->
      forall key c, conversations w !! key = Some c -> active c = true).
Proof.
  split; [done|]. split.
  - intros w w' Hstep key c Hc.
    destruct (extends_present w w' key c (step_extends _ _ Hstep) Hc)
      as [added Hadded].
    eexists. split; [exact Hadded|done].
  - intros w Hreach key c Hc.
    destruct (reachable_sessions w Hreach key) as [rest Hrest].
    rewrite (session_of_present _ _ _ Hc) in Hrest. by rewrite Hrest.
Qed.

Lemma active_never_cleared_witness :
  active (mkConversation
            [system_prompt; mkMessage "system" "obey";
             mkMessage "assistant" "Hello there"] true) = true.
Proof.
  apply (proj2 (proj2 active_never_cleared)
           after_system_request reachable_after_system_request "s1").
  reflexivity.
Defined.

(** C10: in the loop, a chunk whose delta content is [None] adds the empty
    text and does not fail: for every stream of chunks that each have a
    choice, the assembled response is the response so far followed by the
    contents that are present, in arrival order. *)
Theorem absent_content_adds_nothing (chunks : list Chunk) (so_far : string) :
  Forall (fun chunk => chunk ≠ []) chunks ->
  or_empty None = ""
  /\ consume (stream_of_chunks chunks) so_far
     = inr (so_far +:+ join (omap fragment chunks)).
Proof. intros Hall. split; [done|]. by apply consume_chunks. Qed.

Lemma absent_content_adds_nothing_witness :
  or_empty None = ""
  /\ consume (stream_of_chunks
               [[mkChoice (Some "Hel")]; [mkChoice None]; [mkChoice (Some "lo")]]) ""
     = inr "Hello".
Proof.
  apply (absent_content_adds_nothing
           [[mkChoice (Some "Hel")]; [mkChoice None]; [mkChoice (Some "lo")]] "").
  repeat constructor; discriminate.
Defined.

(** * Further properties of the code *)

(** ** The store after a request *)

(** The store after the handler ran: as it was, or with the entry of the
    request's key replaced. *)
Lemma chat_store groq input w :
  conversations (chat groq input w).2 =
    <[conversation_id input :=
        next_session groq input (session_of w (conversation_id input))]>
      (conversations (with_session w (conversation_id input))).
Proof.
  rewrite chat_run. cbv zeta. unfold next_session, with_session.
  destruct (active (session_of w (conversation_id input))) eqn:Hact; simpl.
  - destruct (upstream _ _); simpl; by rewrite insert_insert_eq, ?Hact.
  - rewrite insert_insert_eq.
    destruct (conversations w !! conversation_id input) as [c|] eqn:Hc.
    + rewrite (session_of_present _ _ _ Hc). by rewrite insert_id.
    + unfold session_of in Hact. by rewrite Hc in Hact.
Qed.

Lemma chat_other_key groq input w key :
  conversation_id input ≠ key ->
  conversations (chat groq input w).2 !! key = conversations w !! key.
Proof.
  intros Hne. rewrite chat_store. unfold with_session. simpl.
  by rewrite !lookup_insert_ne.
Qed.

Lemma chat_own_session groq input w :
  session_of (chat groq input w).2 (conversation_id input)
  = next_session groq input (session_of w (conversation_id input)).
Proof.
  unfold session_of at 1. by rewrite chat_store, lookup_insert_eq.
Qed.

Lemma validate_UserInput_inr body input :
  validate_UserInput body = inr input <->
  exists fields,
    body = JObject fields
    /\ field "message" fields = Some (JString (message input))
    /\ (field "role" fields = None /\ input_role input = "user"
        \/ field "role" fields = Some (JString (input_role input)))
    /\ field "conversation_id" fields = Some (JString (conversation_id input)).
Proof.
  split.
  - destruct body as [| | | | |fields]; try done. simpl.
    unfold required_str, defaulted_str.
    intros Hval. exists fields. split; [done|].
    destruct (field "message" fields) as [[| | |text| |]|];
      destruct (field "role" fields) as [[| | |r| |]|];
      destruct (field "conversation_id" fields) as [[| | |key| |]|];
      simpl in Hval; try discriminate Hval;
      injection Hval as <-; simpl; auto.
  - intros (fields & -> & Hm & Hr & Hc). simpl.
    unfold required_str, defaulted_str. rewrite Hm, Hc.
    destruct input as [text r key]. simpl in *.
    destruct Hr as [[-> ->]| ->]; done.
Qed.

(** X15: validation accepts exactly the JSON objects whose [message] and
    [conversation_id] are strings and whose [role] is a string or is left
    out, in which case the role is "user"; the fields are taken as they
    are. *)
Theorem validation_accepts_exactly body input :
  validate_UserInput body = inr input <->
  exists fields,
    body = JObject fields
    /\ field "message" fields = Some (JString (message input))
    /\ (field "role" fields = None /\ input_role input = "user"
        \/ field "role" fields = Some (JString (input_role input)))
    /\ field "conversation_id" fields = Some (JString (conversation_id input)).
Proof. apply validate_UserInput_inr. Qed.

(** X1: a request on one key leaves the entry of every other key in the
    mapping as it was, present or absent, whatever the request's outcome. *)
Theorem other_sessions_untouched groq body w key :
  body_field "conversation_id" body ≠ Some (JString key) ->
  conversations (post_chat groq body w).2 !! key = conversations w !! key.
Proof.
  intros Hother. unfold post_chat.
  destruct (validate_UserInput body) as [errs|input] eqn:Hval; [done|].
  rewrite handle_world. apply chat_other_key. intros <-.
  apply validate_UserInput_inr in Hval as (fields & -> & _ & _ & Hc).
  by apply Hother.
Qed.

Lemma other_sessions_untouched_witness :
  conversations (post_chat groq_hello system_role_body closed_world).2 !! "s2"
  = conversations closed_world !! "s2"
  /\ conversations
       (post_chat groq_hello
          (JObject [("message", JString "hi"); ("conversation_id", JString "s2")])
          closed_world).2 !! "s1"
     = Some (mkConversation [system_prompt] false).
Proof.
  split.
  - apply (other_sessions_untouched groq_hello system_role_body closed_world "s2").
    discriminate.
  - apply (other_sessions_untouched groq_hello
             (JObject [("message", JString "hi"); ("conversation_id", JString "s2")])
             closed_world "s1").
    discriminate.
Defined.

Lemma handle_other_session groq input w key :
  conversation_id input ≠ key ->
  session_of (handle groq input w).2 key = session_of w key.
Proof.
  intros Hne. unfold session_of. by rewrite handle_world, chat_other_key.
Qed.

Lemma handle_own_session groq input w :
  session_of (handle groq input w).2 (conversation_id input)
  = next_session groq input (session_of w (conversation_id input)).
Proof. rewrite handle_world. apply chat_own_session. Qed.

Lemma serve_session_of_own_calls key calls : forall w1 w2,
  session_of w1 key = session_of w2 key ->
  session_of (serve calls w1).2 key = session_of (serve (calls_on key calls) w2).2 key.
Proof.
  unfold calls_on.
  induction calls as [|[groq input] rest IH]; intros w1 w2 Hsame; [done|].
  rewrite serve_world_cons.
  destruct (decide (conversation_id input = key)) as [Hk|Hne].
  - rewrite filter_cons_True by done. rewrite serve_world_cons.
    apply IH. rewrite <- Hk, !handle_own_session, Hk. by rewrite Hsame.
  - rewrite filter_cons_False by done.
    apply IH. by rewrite handle_other_session.
Qed.

(** X2: in a run of requests on any keys, the session of a key ends as if
    only the requests made on that key had been served: requests on other
    keys, whatever their outcome, play no part. *)
Theorem session_depends_on_own_calls key calls w :
  session_of (serve calls w).2 key = session_of (serve (calls_on key calls) w).2 key.
Proof. by apply serve_session_of_own_calls. Qed.

(** X3: on a key that is in the store, [get_or_create_conversation] returns
    it and leaves the world as it was, so a stored history is never reset;
    and a second lookup-or-create changes nothing more than the first. *)
Theorem get_or_create_existing_is_noop key w :
  (forall c, conversations w !! key = Some c ->
     get_or_create_conversation key w = (inr key, w))
  /\ get_or_create_conversation key (get_or_create_conversation key w).2
     = (inr key, (get_or_create_conversation key w).2).
Proof.
  split.
  - intros c Hc. rewrite get_or_create_conversation_run.
    by rewrite (with_session_present _ _ _ Hc).
  - rewrite !get_or_create_conversation_run. simpl. f_equal.
    apply (with_session_present _ _ (session_of w key)).
    unfold with_session. simpl. apply lookup_insert_eq.
Qed.

Lemma get_or_create_existing_is_noop_witness :
  get_or_create_conversation "s1" closed_world = (inr "s1", closed_world).
Proof.
  apply (proj1 (get_or_create_existing_is_noop "s1" closed_world)
           (mkConversation [system_prompt] false)).
  reflexivity.
Defined.

(** X4: the handler raises nothing but the 400 of a closed session, with the
    world unchanged, or the 500 that wraps a collaborator failure, on an open
    session; the caller never sees another error of the handler. *)
Theorem chat_raises_400_or_500 groq input w e :
  (chat groq input w).1 = inl e ->
  (e = HTTPException 400 session_ended
   /\ active (session_of w (conversation_id input)) = false
   /\ (chat groq input w).2 = w)
  \/ (exists cause,
        upstream groq (history_sent w input) = inl cause
        /\ e = HTTPException 500 ("500: Error with Groq API: " +:+ str cause)
        /\ active (session_of w (conversation_id input)) = true).
Proof.
  rewrite chat_run. cbv zeta. unfold history_sent.
  destruct (active (session_of w (conversation_id input))); simpl.
  - destruct (upstream _ _) as [cause|reply]; simpl; [|done].
    intros [= <-]. right. by exists cause.
  - intros [= <-]. by left.
Qed.

Lemma chat_raises_400_or_500_witness :
  (HTTPException 400 session_ended = HTTPException 400 session_ended
   /\ active (session_of closed_world "s1") = false
   /\ (chat groq_hello (hi "s1") closed_world).2 = closed_world)
  \/ (exists cause,
        upstream groq_hello (history_sent closed_world (hi "s1")) = inl cause
        /\ HTTPException 400 session_ended
           = HTTPException 500 ("500: Error with Groq API: " +:+ str cause)
        /\ active (session_of closed_world "s1") = true).
Proof.
  apply (chat_raises_400_or_500 groq_hello (hi "s1") closed_world
           (HTTPException 400 session_ended)).
  reflexivity.
Defined.

(** X5: a request is answered only on an open session whose collaborator
    call succeeded; the answer carries the request's key and the assembled
    text, and that same text is what is stored: the session is the prior
    sequence, the user turn, then the assistant message with the text. *)
Theorem answer_is_what_is_stored groq input w result :
  (handle groq input w).1 = Ok result ->
  result_conversation_id result = conversation_id input
  /\ active (session_of w (conversation_id input)) = true
  /\ upstream groq (history_sent w input) = inr (response result)
  /\ conversations (handle groq input w).2 !! conversation_id input
     = Some (mkConversation
               (messages (session_of w (conversation_id input))
                  ++ [user_turn input; mkMessage "assistant" (response result)])
               true).
Proof.
  rewrite handle_run. cbv zeta. unfold history_sent.
  destruct (active (session_of w (conversation_id input))) eqn:Hact; simpl; [|done].
  destruct (upstream _ _) as [cause|reply]; simpl; [done|].
  intros [= <-]. simpl. repeat split; try done.
  by rewrite lookup_insert_eq, Hact.
Qed.

Lemma answer_is_what_is_stored_witness :
  result_conversation_id (mkChatResult "Hello there" "s1") = "s1"
  /\ active (session_of initial_world "s1") = true
  /\ upstream groq_hello (history_sent initial_world (hi "s1")) = inr "Hello there"
  /\ conversations (handle groq_hello (hi "s1") initial_world).2 !! "s1"
     = Some (mkConversation
               ([system_prompt]
                  ++ [mkMessage "user" "hi"; mkMessage "assistant" "Hello there"])
               true).
Proof.
  apply (answer_is_what_is_stored groq_hello (hi "s1") initial_world
           (mkChatResult "Hello there" "s1")).
  reflexivity.
Defined.



(** ** The fragment loop *)

Lemma consume_yield_then chunks : forall rest so_far,
  Forall (fun chunk => chunk ≠ []) chunks ->
  consume (yield_then chunks rest) so_far
  = consume rest (so_far +:+ join (omap fragment chunks)).
Proof.
  induction chunks as [|chunk chunks IH]; intros rest so_far Hall.
  - simpl. by rewrite string_app_empty_r.
  - apply Forall_cons in Hall as [Hne Hall].
    destruct chunk as [|choice others]; [done|]. simpl.
    rewrite IH by done. rewrite or_empty_default, string_app_assoc.
    by destruct (delta_content choice).
Qed.

(** X7: the loop composes: consuming chunks that each have a choice and then
    the rest of a stream is consuming the rest with the response grown by the
    contents present in those chunks, in order. *)
Theorem consume_composes chunks rest so_far :
  Forall (fun chunk => chunk ≠ []) chunks ->
  consume (yield_then chunks rest) so_far
  = consume rest (so_far +:+ join (omap fragment chunks)).
Proof. by apply consume_yield_then. Qed.

Lemma consume_composes_witness :
  consume (yield_then [[mkChoice (Some "Hel")]; [mkChoice None]]
             (StreamYield [mkChoice (Some "lo")] StreamEnd)) ">"
  = consume (StreamYield [mkChoice (Some "lo")] StreamEnd)
      (">" +:+ join (omap fragment [[mkChoice (Some "Hel")]; [mkChoice None]])).
Proof.
  apply (consume_composes [[mkChoice (Some "Hel")]; [mkChoice None]]
           (StreamYield [mkChoice (Some "lo")] StreamEnd) ">").
  repeat constructor; discriminate.
Defined.

(** X8: the first failure of a stream decides, and the text received before
    it is dropped: after any chunks that each have a choice, a stream that
    raises gives that failure, and a chunk without choices gives the index
    error whatever would have followed. *)
Theorem first_stream_failure_decides groq history chunks :
  Forall (fun chunk => chunk ≠ []) chunks ->
  (forall msg,
     groq history = inr (yield_then chunks (StreamRaise msg)) ->
     upstream groq history = inl (Exception msg))
  /\ (forall rest,
        groq history = inr (yield_then chunks (StreamYield [] rest)) ->
        upstream groq history = inl (Exception "list index out of range")).
Proof.
  intros Hall. split.
  - intros msg Hg. unfold upstream. by rewrite Hg, consume_yield_then.
  - intros rest Hg. unfold upstream. by rewrite Hg, consume_yield_then.
Qed.

Lemma first_stream_failure_decides_witness :
  upstream (fun _ => inr (yield_then [[mkChoice (Some "Hel")]] (StreamRaise "reset")))
    [system_prompt]
  = inl (Exception "reset").
Proof.
  apply (proj1 (first_stream_failure_decides
                  (fun _ => inr (yield_then [[mkChoice (Some "Hel")]]
                                   (StreamRaise "reset")))
                  [system_prompt] [[mkChoice (Some "Hel")]]
                  ltac:(repeat constructor; discriminate))
           "reset").
  reflexivity.
Defined.

(** X9: of a chunk the loop reads the first choice only: two streams whose
    chunks agree on their first choice, or both lack one, and that go on
    alike, are consumed to the same result. *)
Theorem only_first_choice_is_read chunks1 chunks2 rest so_far :
  Forall2 (fun chunk1 chunk2 => head chunk1 = head chunk2) chunks1 chunks2 ->
  consume (yield_then chunks1 rest) so_far = consume (yield_then chunks2 rest) so_far.
Proof.
  intros Hall. revert so_far.
  induction Hall as [|chunk1 chunk2 chunks1 chunks2 Hhead _ IH]; intros so_far;
    [done|].
  simpl. destruct chunk1 as [|c1 o1], chunk2 as [|c2 o2]; try done.
  simpl in Hhead. injection Hhead as <-. apply IH.
Qed.

Lemma only_first_choice_is_read_witness :
  consume (yield_then [[mkChoice (Some "Hel"); mkChoice (Some "Bye")]] StreamEnd) ""
  = consume (yield_then [[mkChoice (Some "Hel")]] StreamEnd) "".
Proof.
  apply (only_first_choice_is_read
           [[mkChoice (Some "Hel"); mkChoice (Some "Bye")]]
           [[mkChoice (Some "Hel")]] StreamEnd "").
  repeat constructor.
Defined.

(** ** The mapping over time *)

(** X10: a closed session is closed for good: no request, on its key or on
    another, and no lookup-or-create changes its messages or its flag. *)
Theorem closed_session_is_frozen w w' key c :
  step w w' ->
  conversations w !! key = Some c ->
  active c = false ->
  conversations w' !! key = Some c.
Proof.
  intros Hstep Hc Hclosed.
  destruct Hstep as [groq body w|key0 w]; [|by apply get_or_create_keeps].
  unfold post_chat. destruct (validate_UserInput body) as [errs|input]; [done|].
  rewrite handle_world.
  destruct (decide (conversation_id input = key)) as [Hk|Hne].
  - rewrite chat_store, Hk, lookup_insert_eq.
    unfold next_session. by rewrite (session_of_present _ _ _ Hc), Hclosed.
  - by rewrite chat_other_key.
Qed.

Lemma closed_session_is_frozen_witness :
  conversations (post_chat groq_hello system_role_body closed_world).2 !! "s1"
  = Some (mkConversation [system_prompt] false).
Proof.
  apply (closed_session_is_frozen closed_world
           (post_chat groq_hello system_role_body closed_world).2 "s1"
           (mkConversation [system_prompt] false)).
  - apply step_post_chat.
  - reflexivity.
  - reflexivity.
Defined.

Lemma insert_grows_by_one (m : gmap string Conversation) key c :
  dom m ⊆ dom (<[key := c]> m) /\ size (<[key := c]> m) <= S (size m).
Proof.
  split; [rewrite dom_insert_L; set_solver|].
  destruct (m !! key) as [c0|] eqn:Hm.
  - rewrite map_size_insert_Some by eauto. lia.
  - rewrite map_size_insert_None by done. lia.
Qed.

(** X11: nothing is ever evicted and a step adds at most one session: the
    keys of the mapping before a step are keys after it, and the mapping
    grows by one entry at most. *)
Theorem mapping_only_grows w w' :
  step w w' ->
  dom (conversations w) ⊆ dom (conversations w')
  /\ size (conversations w') <= S (size (conversations w)).
Proof.
  intros [groq body w0|key w0].
  - unfold post_chat. destruct (validate_UserInput body) as [errs|input]; simpl.
    + split; [done|lia].
    + rewrite handle_world, chat_store. unfold with_session. simpl.
      rewrite insert_insert_eq. apply insert_grows_by_one.
  - rewrite get_or_create_conversation_run. unfold with_session. simpl.
    apply insert_grows_by_one.
Qed.

Lemma mapping_only_grows_witness :
  dom (conversations closed_world)
    ⊆ dom (conversations (post_chat groq_down system_role_body closed_world).2)
  /\ size (conversations (post_chat groq_down system_role_body closed_world).2)
     <= S (size (conversations closed_world)).
Proof.
  apply (mapping_only_grows closed_world
           (post_chat groq_down system_role_body closed_world).2).
  apply step_post_chat.
Defined.

(** X12: once a valid request was handled its session is in the store,
    whatever the outcome: the creation made for a new key is kept when the
    collaborator fails. *)
Theorem valid_request_leaves_a_session groq body input w :
  validate_UserInput body = inr input ->
  is_Some (conversations (post_chat groq body w).2 !! conversation_id input).
Proof.
  intros Hval. unfold post_chat. rewrite Hval, handle_world. apply chat_present.
Qed.

Lemma valid_request_leaves_a_session_witness :
  is_Some (conversations
             (post_chat groq_down
                (JObject [("message", JString "hi"); ("conversation_id", JString "s2")])
                initial_world).2 !! "s2").
Proof.
  apply (valid_request_leaves_a_session groq_down
           (JObject [("message", JString "hi"); ("conversation_id", JString "s2")])
           (hi "s2") initial_world).
  reflexivity.
Defined.

(** X13: a failed request stays in the history that later requests send:
    after a collaborator failure, the next request on the key sends the
    prior messages, the user turn of the failed request and its own; when it
    is answered, the session holds the two user turns in a row, then the
    reply. *)
Theorem failed_turn_is_sent_again groq1 groq2 input1 input2 w cause reply :
  conversation_id input2 = conversation_id input1 ->
  active (session_of w (conversation_id input1)) = true ->
  upstream groq1 (history_sent w input1) = inl cause ->
  upstream groq2 (history_sent w input1 ++ [user_turn input2]) = inr reply ->
  history_sent (chat groq1 input1 w).2 input2
    = history_sent w input1 ++ [user_turn input2]
  /\ conversations (chat groq2 input2 (chat groq1 input1 w).2).2
       !! conversation_id input1
     = Some (mkConversation
               (messages (session_of w (conversation_id input1))
                  ++ [user_turn input1; user_turn input2;
                      mkMessage "assistant" reply])
               true).
Proof.
  intros Hk Hact Hfail Hok.
  assert (Hsess : session_of (chat groq1 input1 w).2 (conversation_id input1)
                  = mkConversation (history_sent w input1) true).
  { rewrite chat_own_session. unfold next_session, history_sent in *.
    by rewrite Hact, Hfail. }
  assert (Hsent : history_sent (chat groq1 input1 w).2 input2
                  = history_sent w input1 ++ [user_turn input2]).
  { unfold history_sent at 1. by rewrite Hk, Hsess. }
  split; [done|].
  rewrite chat_store, Hk, lookup_insert_eq, Hsess.
  unfold next_session. simpl. rewrite Hok. unfold history_sent, turn. simpl.
  by rewrite <- app_assoc.
Qed.

Lemma failed_turn_is_sent_again_witness :
  history_sent (chat groq_flaky (hi "s1") initial_world).2
    (mkUserInput "hi?" "user" "s1")
    = history_sent initial_world (hi "s1") ++ [mkMessage "user" "hi?"]
  /\ conversations
       (chat groq_flaky (mkUserInput "hi?" "user" "s1")
          (chat groq_flaky (hi "s1") initial_world).2).2 !! "s1"
     = Some (mkConversation
               ([system_prompt]
                  ++ [mkMessage "user" "hi"; mkMessage "user" "hi?";
                      mkMessage "assistant" "Hello again"])
               true).
Proof.
  apply (failed_turn_is_sent_again groq_flaky groq_flaky (hi "s1")
           (mkUserInput "hi?" "user" "s1") initial_world
           (Exception "Connection error.") "Hello again"); reflexivity.
Defined.

Lemma serve_responses_cons groq input rest w :
  (serve ((groq, input) :: rest) w).1
  = (handle groq input w).1 :: (serve rest (handle groq input w).2).1.
Proof.
  simpl. destruct (handle groq input w) as [r w']. simpl.
  by destruct (serve rest w') as [rs w''].
Qed.

Lemma next_session_open groq input c :
  active c = true ->
  active (next_session groq input c) = true
  /\ length (messages (next_session groq input c))
     = length (messages c) + 1
       + match upstream groq (messages c ++ [user_turn input]) with
         | inl _ => 0
         | inr _ => 1
         end.
Proof.
  intros Hact. unfold next_session. rewrite Hact. simpl.
  destruct (upstream _ _); simpl; rewrite length_app; simpl; split; (done || lia).
Qed.

(** X14: on an open session every request adds its user turn, and every
    answered one the reply as well: after a run of requests on one key the
    history has grown by the number of requests plus the number of
    answers, failures included. *)
Theorem history_grows_by_requests_and_answers key calls : forall w,
  Forall (fun call => conversation_id call.2 = key) calls ->
  active (session_of w key) = true ->
  length (messages (session_of (serve calls w).2 key))
  = length (messages (session_of w key)) + length calls
    + sum_list (answered <$> (serve calls w).1).
Proof.
  induction calls as [|[groq input] rest IH]; intros w Hkey Hact.
  - simpl. lia.
  - apply Forall_cons in Hkey as [Hk Hkey]. simpl in Hk.
    rewrite serve_world_cons, serve_responses_cons.
    destruct (next_session_open groq input (session_of w key) Hact) as [Hact' Hlen].
    assert (Hown : session_of (handle groq input w).2 key
                   = next_session groq input (session_of w key))
      by (rewrite <- Hk at 1; by rewrite handle_own_session, Hk).
    rewrite IH by (done || by rewrite Hown).
    rewrite Hown, Hlen. rewrite fmap_cons. simpl.
    assert (Hans : answered (handle groq input w).1
                   = match upstream groq (messages (session_of w key)
                                            ++ [user_turn input]) with
                     | inl _ => 0
                     | inr _ => 1
                     end).
    { rewrite handle_run. cbv zeta. rewrite Hk, Hact. simpl.
      by destruct (upstream _ _). }
    rewrite Hans. lia.
Qed.

Lemma history_grows_by_requests_and_answers_witness :
  length (messages (session_of
                      (serve [(groq_flaky, hi "s1");
                              (groq_flaky, mkUserInput "hi?" "user" "s1")]
                         initial_world).2 "s1"))
  = length (messages (session_of initial_world "s1")) + 2
    + sum_list (answered <$>
                  (serve [(groq_flaky, hi "s1");
                          (groq_flaky, mkUserInput "hi?" "user" "s1")]
                     initial_world).1).
Proof.
  apply (history_grows_by_requests_and_answers "s1"
           [(groq_flaky, hi "s1"); (groq_flaky, mkUserInput "hi?" "user" "s1")]
           initial_world).
  - repeat constructor.
  - reflexivity.
Defined.



(** ** Startup *)

(** X17: the service starts only with a non-empty [GROQ_API_KEY]: the key
    handed to the client is the variable's value, and a variable that is
    unset or set to the empty text stops the startup with the same error. *)
Theorem startup_needs_a_nonempty_key environ :
  (forall key,
     startup environ = inr key <->
     environ !! "GROQ_API_KEY" = Some key /\ key ≠ "")
  /\ (forall e, startup environ = inl e -> e = Exception api_key_missing).
Proof.
  unfold startup, GROQ_API_KEY.
  destruct (environ !! "GROQ_API_KEY") as [value|].
  - case_bool_decide as Hempty; split.
    + intros key. split; [done|]. intros [[= ->] Hne]. done.
    + by intros e [= <-].
    + intros key. split; [by intros [= <-]|]. by intros [[= ->] _].
    + done.
  - split.
    + intros key. split; [done|]. by intros [? _].
    + by intros e [= <-].
Qed.

Lemma startup_needs_a_nonempty_key_witness :
  startup {[ "GROQ_API_KEY" := "gsk_1" ]} = inr "gsk_1".
Proof.
  apply (proj2 (proj1 (startup_needs_a_nonempty_key {[ "GROQ_API_KEY" := "gsk_1" ]})
                  "gsk_1")).
  split; [reflexivity|discriminate].
Defined.
